(** * A shallow embedding of [topy_simple.py] (the Topy kernel)

    The Python module keeps Betti-number invariants of a graph carrier
    and runs operators through a verify-then-commit-then-reconcile
    protocol.  Dicts are modelled by stdpp's [gmap], the networkx graph
    by a node list and an edge list (insertion order kept, as networkx
    does), and the exception [TopyContractViolation] by an outcome
    constructor of [execute]. *)

From Stdlib Require Import ZArith Lia.
From stdpp Require Import base gmap list strings.

Open Scope Z_scope.

(* ------------------------------------------------------------------ *)
(** ** Labels and dictionaries *)

Definition beta0 : string := "β0".
Definition beta1 : string := "β1".
Definition beta2 : string := "β2".
Definition betti_group : string := "betti".
Definition max_betti1_key : string := "max_betti1".

(** A [Dict[str, int]] of invariant values. *)
Abbreviation betti_map := (gmap string Z).

(** A [Dict[str, Dict[str, int]]] of deltas, group -> label -> delta. *)
Abbreviation deltas := (gmap string (gmap string Z)).

(** The constraints mapping; only integer bounds are modelled. *)
Abbreviation constraints := (gmap string Z).

(* ------------------------------------------------------------------ *)
(** ** [Invariants] *)

Record Invariants := mkInv { betti : betti_map }.

Definition default_betti : betti_map :=
  list_to_map [(beta0, 1); (beta1, 0); (beta2, 0)].

(** [Invariants.__init__]: [self.betti = betti or {...}]; [None] and
    an empty dict are both falsy in Python. *)
Definition Invariants_init (arg : option betti_map) : Invariants :=
  match arg with
  | Some b => if decide (b = ∅) then mkInv default_betti else mkInv b
  | None => mkInv default_betti
  end.

(** [Invariants.copy]: [Invariants(betti=copy.deepcopy(self.betti))]. *)
Definition Invariants_copy (self : Invariants) : Invariants :=
  Invariants_init (Some (betti self)).

(** The inner loop of [apply_deltas]:
    [for k, dv in kv.items(): out.betti[k] = out.betti.get(k, 0) + dv]. *)
Definition add_label_deltas (kv : gmap string Z) (out : betti_map) : betti_map :=
  map_fold (fun k dv o => <[k := default 0 (o !! k) + dv]> o) out kv.

(** [Invariants.apply_deltas]: copy, then walk every group of the
    deltas, interpreting only the group ["betti"]. *)
Definition apply_deltas (self : Invariants) (d : deltas) : Invariants :=
  mkInv (map_fold
           (fun inv_group kv out =>
              if String.eqb inv_group betti_group then add_label_deltas kv out
              else out)
           (betti (Invariants_copy self)) d).

(* ------------------------------------------------------------------ *)
(** ** The networkx graph behind [GraphCarrier] *)

Abbreviation node := nat.

(** An undirected [nx.Graph]: nodes in insertion order, and each
    undirected edge stored once. *)
Record Graph := mkGraph { g_nodes : list node; g_edges : list (node * node) }.

Definition mem (v : node) (l : list node) : bool := existsb (Nat.eqb v) l.

Definition number_of_nodes (G : Graph) : nat := length (g_nodes G).
Definition number_of_edges (G : Graph) : nat := length (g_edges G).

Definition neighbors (G : Graph) (v : node) : list node :=
  flat_map (fun '(a, b) =>
              (if Nat.eqb a v then [b] else []) ++ (if Nat.eqb b v then [a] else []))
           (g_edges G).

(** [_plain_bfs]: grow the seen set level by level; [fuel] bounds the
    number of levels (the node count suffices). *)
Fixpoint plain_bfs (G : Graph) (fuel : nat) (seen frontier : list node) : list node :=
  match fuel with
  | O => seen
  | S f =>
      let next := remove_dups
                    (filter (fun w => negb (mem w seen)) (flat_map (neighbors G) frontier)) in
      match next with
      | [] => seen
      | _ => plain_bfs G f (seen ++ next) next
      end
  end.

(** [nx.connected_components]: for each node not yet seen, yield the
    component found by a BFS from it. *)
Fixpoint cc_go (G : Graph) (vs seen : list node) : list (list node) :=
  match vs with
  | [] => []
  | v :: vs' =>
      if mem v seen then cc_go G vs' seen
      else let c := plain_bfs G (number_of_nodes G) [v] [v] in
           c :: cc_go G vs' (seen ++ c)
  end.

Definition connected_components (G : Graph) : list (list node) :=
  cc_go G (g_nodes G) [].

Definition number_connected_components (G : Graph) : nat :=
  length (connected_components G).

(** [G.add_node(u)]. *)
Definition add_node (G : Graph) (u : node) : Graph :=
  if mem u (g_nodes G) then G else mkGraph (g_nodes G ++ [u]) (g_edges G).

Definition has_edge (G : Graph) (u v : node) : bool :=
  existsb (fun '(a, b) => (Nat.eqb a u && Nat.eqb b v) || (Nat.eqb a v && Nat.eqb b u))
          (g_edges G).

(** [G.add_edge(u, v)]: adds the endpoints, then the edge unless it is
    already present (in either orientation). *)
Definition add_edge (G : Graph) (e : node * node) : Graph :=
  let '(u, v) := e in
  let G1 := add_node (add_node G u) v in
  if has_edge G1 u v then G1 else mkGraph (g_nodes G1) (g_edges G1 ++ [(u, v)]).

Definition add_edges_from (G : Graph) (es : list (node * node)) : Graph :=
  foldl add_edge G es.

(* ------------------------------------------------------------------ *)
(** ** [GraphCarrier] *)

(** [GraphCarrier.measure_invariants]. *)
Definition measure_invariants (G : Graph) : Invariants :=
  let n := Z.of_nat (number_of_nodes G) in
  let m := Z.of_nat (number_of_edges G) in
  let c := Z.of_nat (number_connected_components G) in
  Invariants_init (Some (list_to_map [(beta0, c); (beta1, m - n + c); (beta2, 0)])).

(** [nx.path_graph(4)]. *)
Definition path_graph4 : Graph := mkGraph [0; 1; 2; 3]%nat [(0, 1); (1, 2); (2, 3)]%nat.

(* ------------------------------------------------------------------ *)
(** ** Operators *)

(** The operator's [parameters] dict; only the key ["edges"] is read. *)
Record params := mkParams { p_edges : option (list (node * node)) }.

(** [self.parameters.get("edges", [])]. *)
Definition param_edges (p : params) : list (node * node) := default [] (p_edges p).

Inductive Operator :=
| I_AddCycleRedundancy (parameters : params)
| I_CalculateH1Graph (parameters : params).

Definition op_name (op : Operator) : string :=
  match op with
  | I_AddCycleRedundancy _ => "I_AddCycleRedundancy"
  | I_CalculateH1Graph _ => "I_CalculateH1Graph"
  end.

Definition op_parameters (op : Operator) : params :=
  match op with I_AddCycleRedundancy p | I_CalculateH1Graph p => p end.

Definition requires_geometric_realization (op : Operator) : bool :=
  match op with I_AddCycleRedundancy _ => true | I_CalculateH1Graph _ => false end.

Definition force_measure (op : Operator) : bool :=
  match op with I_AddCycleRedundancy _ => true | I_CalculateH1Graph _ => true end.

(** [for i, comp in enumerate(nx.connected_components(carrier.G)):
       for v in comp: comp_index[v] = i]. *)
Definition comp_index_of (G : Graph) : gmap node nat :=
  snd (foldl (fun (acc : nat * gmap node nat) comp =>
                let '(i, ci) := acc in
                (S i, foldl (fun ci' v => <[v := i]> ci') ci comp))
             (O, ∅) (connected_components G)).

(** One iteration of [for u, v in edges: ...], on the accumulator
    [(delta_beta1, delta_beta0)]. *)
Definition acr_step (comp_index : gmap node nat) (acc : Z * Z) (e : node * node) : Z * Z :=
  let '(delta_beta1, delta_beta0) := acc in
  let '(u, v) := e in
  match comp_index !! u, comp_index !! v with
  | Some cu, Some cv =>
      if Nat.eqb cu cv then (delta_beta1 + 1, delta_beta0)
      else (delta_beta1, delta_beta0 - 1)
  | _, _ => (delta_beta1, delta_beta0)
  end.

Definition betti_deltas (delta_beta1 delta_beta0 : Z) : deltas :=
  {[ betti_group := list_to_map [(beta1, delta_beta1); (beta0, delta_beta0)] ]}.

(** [I_AddCycleRedundancy.algebraic_effect]. *)
Definition acr_algebraic_effect (p : params) (current : Invariants) (G : Graph) : deltas :=
  let edges := param_edges p in
  let comp_index := comp_index_of G in
  let '(delta_beta1, delta_beta0) := foldl (acr_step comp_index) (0, 0) edges in
  betti_deltas delta_beta1 delta_beta0.

(** [I_AddCycleRedundancy.verify_contract]; [None] is a [KeyError]
    ([deltas["betti"]["β1"]] or [current.betti["β1"]] missing).  An
    absent ["max_betti1"] is [float("inf")]. *)
Definition acr_verify_contract (current : Invariants) (d : deltas) (cs : constraints)
    (G : Graph) : option bool :=
  match d !! betti_group ≫= (fun kv => kv !! beta1) with
  | None => None
  | Some d1 =>
      if decide (d1 < 0) then Some false
      else match betti current !! beta1 with
           | None => None
           | Some b1 =>
               Some (match cs !! max_betti1_key with
                     | None => true
                     | Some max_b1 => bool_decide (b1 + d1 <= max_b1)
                     end)
           end
  end.

(** [I_AddCycleRedundancy.realize_geometrically]: add missing
    endpoints, then [G.add_edges_from(edges)]. *)
Definition acr_realize_geometrically (p : params) (G : Graph) : Graph :=
  let G1 := foldl (fun G' (e : node * node) =>
                     let '(u, v) := e in
                     let G'' := if mem u (g_nodes G') then G' else add_node G' u in
                     if mem v (g_nodes G'') then G'' else add_node G'' v)
                  G (param_edges p) in
  add_edges_from G1 (param_edges p).

(** [I_CalculateH1Graph]'s three methods. *)
Definition h1_algebraic_effect (p : params) (current : Invariants) (G : Graph) : deltas := ∅.
Definition h1_verify_contract (current : Invariants) (d : deltas) (cs : constraints)
    (G : Graph) : option bool := Some true.
Definition h1_realize_geometrically (p : params) (G : Graph) : Graph := G.

(** Dynamic dispatch of the three methods. *)
Definition algebraic_effect (op : Operator) : Invariants -> Graph -> deltas :=
  match op with
  | I_AddCycleRedundancy p => acr_algebraic_effect p
  | I_CalculateH1Graph p => h1_algebraic_effect p
  end.

Definition verify_contract (op : Operator)
    : Invariants -> deltas -> constraints -> Graph -> option bool :=
  match op with
  | I_AddCycleRedundancy _ => acr_verify_contract
  | I_CalculateH1Graph _ => h1_verify_contract
  end.

Definition realize_geometrically (op : Operator) : Graph -> Graph :=
  match op with
  | I_AddCycleRedundancy p => acr_realize_geometrically p
  | I_CalculateH1Graph p => h1_realize_geometrically p
  end.

(* ------------------------------------------------------------------ *)
(** ** [TopyKernel] *)

Record log_entry := mkEntry { le_name : string; le_parameters : params; le_deltas : deltas }.

Record Kernel := mkKernel {
  carrier : Graph;
  invariants : Invariants;
  log : list log_entry
}.

(** [TopyKernel.__init__]. *)
Definition TopyKernel_init (G : Graph) : Kernel :=
  mkKernel G (measure_invariants G) [].

(** How a call to [execute] ends, with the kernel's state at that
    point: normally, by [TopyContractViolation] (operator name and
    deltas), or by a [KeyError] escaping [verify_contract]. *)
Inductive outcome :=
| Completed (k : Kernel)
| ContractViolation (name : string) (d : deltas) (k : Kernel)
| KeyError (k : Kernel).

(** Steps 3-6 of the loop body, once the contract has been accepted. *)
Definition commit (op : Operator) (d : deltas) (k : Kernel) : Kernel :=
  let inv1 := apply_deltas (invariants k) d in
  let car := if requires_geometric_realization op
             then realize_geometrically op (carrier k) else carrier k in
  let inv2 := if force_measure op
              then let measured := measure_invariants car in
                   if decide (betti measured = betti inv1) then inv1 else measured
              else inv1 in
  mkKernel car inv2 (log k ++ [mkEntry (op_name op) (op_parameters op) d]).

(** [TopyKernel.execute]. *)
Fixpoint execute (k : Kernel) (operator_spec : list Operator) (cs : constraints) : outcome :=
  match operator_spec with
  | [] => Completed k
  | op :: rest =>
      let d := algebraic_effect op (invariants k) (carrier k) in
      match verify_contract op (invariants k) d cs (carrier k) with
      | None => KeyError k
      | Some false => ContractViolation (op_name op) d k
      | Some true => execute (commit op d k) rest cs
      end
  end.

Definition outcome_kernel (o : outcome) : Kernel :=
  match o with Completed k | ContractViolation _ _ k | KeyError k => k end.

(** The demo: [ops = [I_AddCycleRedundancy({"edges": [(0, 3)]}), I_CalculateH1Graph({})]]. *)
Definition demo_ops : list Operator :=
  [I_AddCycleRedundancy (mkParams (Some [(0, 3)]%nat)); I_CalculateH1Graph (mkParams None)].
Definition demo_constraints : constraints := {[ max_betti1_key := 3 ]}.

(* ------------------------------------------------------------------ *)
(** ** Object identity for [apply_deltas]

    Python dicts are shared objects.  To state that [apply_deltas] does
    not mutate its receiver, the [betti] dicts live in a store, and an
    [Invariants] object is the location of its [betti] dict. *)

Abbreviation loc := positive.
Abbreviation heap := (gmap loc betti_map).

Definition alloc (h : heap) (b : betti_map) : heap * loc :=
  let l := fresh (dom h) in (<[l := b]> h, l).

(** [Invariants.__init__] with a dict object (or [None]) as argument. *)
Definition Invariants_init_heap (h : heap) (arg : option loc) : heap * loc :=
  match arg with
  | Some l => if decide (default ∅ (h !! l) = ∅) then alloc h default_betti else (h, l)
  | None => alloc h default_betti
  end.

(** [Invariants.copy]: [copy.deepcopy] allocates a new dict. *)
Definition Invariants_copy_heap (h : heap) (self : loc) : heap * loc :=
  let '(h1, l1) := alloc h (default ∅ (h !! self)) in
  Invariants_init_heap h1 (Some l1).

(** [Invariants.apply_deltas], writing [out.betti[k]] in place. *)
Definition apply_deltas_heap (h : heap) (self : loc) (d : deltas) : heap * loc :=
  let '(h1, out) := Invariants_copy_heap h self in
  (map_fold (fun inv_group kv h' =>
               if String.eqb inv_group betti_group then
                 map_fold (fun k dv h'' =>
                             alter (fun o => <[k := default 0 (o !! k) + dv]> o) out h'')
                          h' kv
               else h') h1 d,
   out).

(* ------------------------------------------------------------------ *)
(** ** Kernels reachable by the public API *)

(** A kernel is built by [TopyKernel(carrier)] and then changed only by
    calls to [execute], whether they complete or raise. *)
Inductive reachable : Kernel -> Prop :=
| reachable_init (G : Graph) : reachable (TopyKernel_init G)
| reachable_execute (k : Kernel) (ops : list Operator) (cs : constraints) :
    reachable k -> reachable (outcome_kernel (execute k ops cs)).

(* ------------------------------------------------------------------ *)
(** ** Auxiliary notions for stating properties *)

(** Every edge endpoint is a node, as in any [nx.Graph]. *)
Definition graph_wf (G : Graph) : Prop :=
  forall a b, (a, b) ∈ g_edges G -> a ∈ g_nodes G /\ b ∈ g_nodes G.

Definition sum_pairs (l : list (Z * Z)) : Z * Z :=
  foldr (fun x acc => (fst x + fst acc, snd x + snd acc)) (0, 0) l.

(** The [(β1, β0)] entries of a deltas mapping, 0 when missing. *)
Definition effect_values (d : deltas) : Z * Z :=
  (default 0 (d !! betti_group ≫= (fun kv => kv !! beta1)),
   default 0 (d !! betti_group ≫= (fun kv => kv !! beta0))).

(** One candidate edge scored against the carrier: [(+1, 0)] when both
    endpoints are nodes with the same component index, [(0, -1)] when
    both are nodes in different components, nothing otherwise. *)
Definition edge_contribution (G : Graph) (e : node * node) : Z * Z :=
  let '(u, v) := e in
  if mem u (g_nodes G) && mem v (g_nodes G) then
    if decide (comp_index_of G !! u = comp_index_of G !! v) then (1, 0) else (0, -1)
  else (0, 0).

(** For comparison only: the same scoring but against a carrier that
    is updated after every edge (the incremental alternative that the
    code does not implement). *)
Definition incremental_effect_pair (G : Graph) (es : list (node * node)) : Z * Z :=
  fst (foldl (fun (acc : (Z * Z) * Graph) e =>
                let '(a, G') := acc in (acr_step (comp_index_of G') a e, add_edge G' e))
             ((0, 0), G) es).

Definition three_isolated : Graph := mkGraph [0; 1; 2]%nat [].
Definition chain_edges : list (node * node) := [(0, 1); (1, 2); (0, 2)]%nat.

(** The spec's three-operator scenario: on the 4-node path, the first
    two [I_AddCycleRedundancy] operators each close one cycle and the
    third crosses [max_betti1 = 2]. *)
Definition three_ops : list Operator :=
  [I_AddCycleRedundancy (mkParams (Some [(0, 3)]%nat));
   I_AddCycleRedundancy (mkParams (Some [(0, 2)]%nat));
   I_AddCycleRedundancy (mkParams (Some [(1, 3)]%nat))].
Definition three_ops_constraints : constraints := {[ max_betti1_key := 2 ]}.
Definition three_ops_run : outcome :=
  execute (TopyKernel_init path_graph4) three_ops three_ops_constraints.

Definition demo_run : outcome :=
  execute (TopyKernel_init path_graph4) demo_ops demo_constraints.

(** A store holding one default betti dict, and deltas with a group
    other than ["betti"]. *)
Definition demo_heap : heap := {[ 1%positive := default_betti ]}.
Definition demo_deltas : deltas :=
  <["euler" := {[ "chi" := 5 ]}]> (betti_deltas 1 (-1)).

(** The body of the first loop of [realize_geometrically]
    ([if u not in G: G.add_node(u)] and the same for [v]). *)
Definition endpoint_step (G' : Graph) (e : node * node) : Graph :=
  let '(u, v) := e in
  let G'' := if mem u (g_nodes G') then G' else add_node G' u in
  if mem v (g_nodes G'') then G'' else add_node G'' v.

(* ================================================================== *)
(** * Properties *)

(** ** Basic facts about the model *)

Lemma mem_spec (v : node) (l : list node) : mem v l = true <-> v ∈ l.
Proof.
  unfold mem. rewrite existsb_exists. split.
  - intros [x [Hin Heq]]. apply Nat.eqb_eq in Heq. subst. by apply list_elem_of_In.
  - intros Hin. exists v. split; [by apply list_elem_of_In | apply Nat.eqb_refl].
Qed.

Lemma measured_betti (G : Graph) :
  betti (measure_invariants G) =
  list_to_map [(beta0, Z.of_nat (number_connected_components G));
               (beta1, Z.of_nat (number_of_edges G) - Z.of_nat (number_of_nodes G)
                       + Z.of_nat (number_connected_components G));
               (beta2, 0)].
Proof.
  unfold measure_invariants, Invariants_init. simpl.
  rewrite decide_False; [done|]. apply insert_non_empty.
Qed.

Lemma default_betti_nonempty : default_betti ≠ ∅.
Proof. unfold default_betti. simpl. apply insert_non_empty. Qed.

Lemma Invariants_init_nonempty (arg : option betti_map) : betti (Invariants_init arg) ≠ ∅.
Proof.
  destruct arg as [b|]; simpl; [|apply default_betti_nonempty].
  case_decide; simpl; [apply default_betti_nonempty | done].
Qed.

Lemma measure_nonempty (G : Graph) : betti (measure_invariants G) ≠ ∅.
Proof. apply Invariants_init_nonempty. Qed.

Lemma Invariants_copy_nonempty (b : betti_map) : b ≠ ∅ -> Invariants_copy (mkInv b) = mkInv b.
Proof. intros Hb. unfold Invariants_copy, Invariants_init. simpl. by rewrite decide_False. Qed.

(** ** C7: [measure_invariants] *)

(** C7: for every graph carrier, [measure_invariants] yields
    β0 = c, β1 = m - n + c and β2 = 0, where n, m and c are the node,
    edge and connected-component counts. *)
Theorem measure_invariants_betti (G : Graph) :
  let n := Z.of_nat (number_of_nodes G) in
  let m := Z.of_nat (number_of_edges G) in
  let c := Z.of_nat (number_connected_components G) in
  betti (measure_invariants G) !! beta0 = Some c /\
  betti (measure_invariants G) !! beta1 = Some (m - n + c) /\
  betti (measure_invariants G) !! beta2 = Some 0.
Proof.
  cbv zeta. rewrite measured_betti. simpl.
  split; [|split]; reflexivity.
Qed.

(** ** C10: the [Invariants] constructor *)

(** C10: [Invariants(betti={})] is the same as [Invariants()], namely
    the default [{β0: 1, β1: 0, β2: 0}], and no argument makes the
    constructor hold an empty betti mapping. *)
Theorem Invariants_init_empty_is_default :
  Invariants_init (Some ∅) = Invariants_init None /\
  betti (Invariants_init None) = list_to_map [(beta0, 1); (beta1, 0); (beta2, 0)] /\
  (forall arg : option betti_map, betti (Invariants_init arg) ≠ ∅).
Proof.
  split; [|split].
  - unfold Invariants_init. by rewrite decide_True.
  - reflexivity.
  - apply Invariants_init_nonempty.
Qed.

(** ** [apply_deltas] *)

Lemma add_label_deltas_lookup (kv : gmap string Z) (out : betti_map) (k : string) :
  add_label_deltas kv out !! k =
  match kv !! k with Some dv => Some (default 0 (out !! k) + dv) | None => out !! k end.
Proof.
  revert k. unfold add_label_deltas.
  apply (map_fold_weak_ind (fun r m => forall k, r !! k =
    match m !! k with Some dv => Some (default 0 (out !! k) + dv) | None => out !! k end)).
  - intros k. by rewrite lookup_empty.
  - intros i x m r Hi IH k. destruct (decide (i = k)) as [->|Hne].
    + rewrite !lookup_insert_eq. specialize (IH k). rewrite Hi in IH. by rewrite IH.
    + rewrite !lookup_insert_ne by done. apply IH.
Qed.

Lemma apply_deltas_fold (self : Invariants) (d : deltas) :
  betti (apply_deltas self d) =
  match d !! betti_group with
  | Some kv => add_label_deltas kv (betti (Invariants_copy self))
  | None => betti (Invariants_copy self)
  end.
Proof.
  unfold apply_deltas. simpl.
  apply (map_fold_weak_ind (fun r m => r =
    match m !! betti_group with
    | Some kv => add_label_deltas kv (betti (Invariants_copy self))
    | None => betti (Invariants_copy self)
    end)).
  - by rewrite lookup_empty.
  - intros i x m r Hi IH. destruct (String.eqb_spec i betti_group) as [->|Hne].
    + rewrite lookup_insert_eq. rewrite Hi in IH. by rewrite IH.
    + rewrite lookup_insert_ne by done. exact IH.
Qed.

Lemma apply_deltas_lookup (b : betti_map) (d : deltas) (k : string) :
  b ≠ ∅ ->
  betti (apply_deltas (mkInv b) d) !! k =
  match d !! betti_group ≫= (fun kv => kv !! k) with
  | Some dv => Some (default 0 (b !! k) + dv)
  | None => b !! k
  end.
Proof.
  intros Hb. rewrite apply_deltas_fold, Invariants_copy_nonempty by done. simpl.
  destruct (d !! betti_group) as [kv|]; simpl; [|done].
  apply add_label_deltas_lookup.
Qed.

(** The in-place loop of [apply_deltas] only writes location [out]. *)
Lemma label_loop_heap (kv : gmap string Z) (out : loc) (h0 : heap) (o0 : betti_map) :
  h0 !! out = Some o0 ->
  let r := map_fold (fun k dv h'' =>
                       alter (fun o => <[k := default 0 (o !! k) + dv]> o) out h'') h0 kv in
  (forall l, l ≠ out -> r !! l = h0 !! l) /\ r !! out = Some (add_label_deltas kv o0).
Proof.
  intros Hout. cbv zeta.
  cut ((forall l, l ≠ out -> map_fold (fun k dv h'' =>
          alter (fun o => <[k := default 0 (o !! k) + dv]> o) out h'') h0 kv !! l = h0 !! l) /\
       exists o, map_fold (fun k dv h'' =>
          alter (fun o => <[k := default 0 (o !! k) + dv]> o) out h'') h0 kv !! out = Some o /\
       forall k, o !! k = match kv !! k with
                          | Some dv => Some (default 0 (o0 !! k) + dv) | None => o0 !! k end).
  { intros [Hne [o [Ho Hk]]]. split; [done|]. rewrite Ho. f_equal.
    apply map_eq. intros k. by rewrite Hk, add_label_deltas_lookup. }
  apply (map_fold_weak_ind (fun r m =>
    (forall l, l ≠ out -> r !! l = h0 !! l) /\
    exists o, r !! out = Some o /\
    forall k, o !! k = match m !! k with
                       | Some dv => Some (default 0 (o0 !! k) + dv) | None => o0 !! k end)).
  - split; [done|]. exists o0. split; [done|]. intros k. by rewrite lookup_empty.
  - intros i x m r Hi [Hne [o [Ho Hk]]]. split.
    + intros l Hl. rewrite lookup_alter_ne by done. by apply Hne.
    + exists (<[i := default 0 (o !! i) + x]> o). split.
      * by rewrite lookup_alter_eq, Ho.
      * intros k. destruct (decide (i = k)) as [->|Hik].
        -- rewrite !lookup_insert_eq. rewrite (Hk k), Hi. done.
        -- rewrite !lookup_insert_ne by done. apply Hk.
Qed.

Lemma group_loop_heap (d : deltas) (out : loc) (h1 : heap) :
  map_fold (fun inv_group kv h' =>
              if String.eqb inv_group betti_group then
                map_fold (fun k dv h'' =>
                            alter (fun o => <[k := default 0 (o !! k) + dv]> o) out h'')
                         h' kv
              else h') h1 d =
  match d !! betti_group with
  | Some kv => map_fold (fun k dv h'' =>
                           alter (fun o => <[k := default 0 (o !! k) + dv]> o) out h'') h1 kv
  | None => h1
  end.
Proof.
  apply (map_fold_weak_ind (fun r m => r =
    match m !! betti_group with
    | Some kv => map_fold (fun k dv h'' =>
                             alter (fun o => <[k := default 0 (o !! k) + dv]> o) out h'') h1 kv
    | None => h1
    end)).
  - by rewrite lookup_empty.
  - intros i x m r Hi IH. destruct (String.eqb_spec i betti_group) as [->|Hne].
    + rewrite lookup_insert_eq. rewrite Hi in IH. by rewrite IH.
    + rewrite lookup_insert_ne by done. exact IH.
Qed.

(** C6: [apply_deltas] is pure.  It returns a freshly allocated
    [Invariants] whose betti value for each label is the receiver's
    value (0 if missing) plus the label's delta in the group ["betti"]
    (other groups are ignored), it writes no other object, and the
    receiver's betti mapping is unchanged.  The receiver's mapping is
    non-empty, as for every [Invariants] built by the constructor
    (see C10). *)
Theorem apply_deltas_pure (h : heap) (self : loc) (b : betti_map) (d : deltas) :
  h !! self = Some b -> b ≠ ∅ ->
  let '(h', out) := apply_deltas_heap h self d in
  ((out ∉ dom h) /\
  h' !! self = Some b /\
  (forall l, l ≠ out -> h' !! l = h !! l) /\
  h' !! out = Some (betti (apply_deltas (mkInv b) d)) /\
  (forall k, betti (apply_deltas (mkInv b) d) !! k =
             match d !! betti_group ≫= (fun kv => kv !! k) with
             | Some dv => Some (default 0 (b !! k) + dv)
             | None => b !! k
             end)).
Proof.
  intros Hself Hb.
  assert (Hres : betti (apply_deltas (mkInv b) d) =
                 match d !! betti_group with Some kv => add_label_deltas kv b | None => b end).
  { by rewrite apply_deltas_fold, Invariants_copy_nonempty. }
  assert (Hlook := apply_deltas_lookup b d).
  rewrite Hres in Hlook |- *.
  unfold apply_deltas_heap, Invariants_copy_heap, alloc. rewrite Hself. simpl.
  set (l1 := fresh (dom h)).
  assert (Hl1 : l1 ∉ dom h) by apply is_fresh.
  assert (Hne : self ≠ l1).
  { intros ->. apply Hl1. by apply elem_of_dom_2 in Hself. }
  unfold Invariants_init_heap. rewrite lookup_insert_eq. simpl.
  rewrite decide_False by done.
  rewrite group_loop_heap.
  assert (Hloop : forall l, l ≠ l1 ->
    match d !! betti_group with
    | Some kv => map_fold (fun k dv h'' =>
                   alter (fun o => <[k := default 0 (o !! k) + dv]> o) l1 h'') (<[l1:=b]> h) kv
    | None => <[l1:=b]> h
    end !! l = h !! l).
  { intros l Hl. destruct (d !! betti_group) as [kv|].
    - destruct (label_loop_heap kv l1 (<[l1:=b]> h) b) as [H1 _]; [by rewrite lookup_insert_eq|].
      rewrite H1 by done. by rewrite lookup_insert_ne by done.
    - by rewrite lookup_insert_ne by done. }
  split; [done|]. split; [rewrite Hloop; done|]. split; [done|]. split.
  - destruct (d !! betti_group) as [kv|].
    + destruct (label_loop_heap kv l1 (<[l1:=b]> h) b) as [_ H2]; [by rewrite lookup_insert_eq|].
      exact H2.
    + by rewrite lookup_insert_eq.
  - intros k. by apply Hlook.
Qed.

(** ** C3: [I_AddCycleRedundancy.verify_contract] *)

(** C3: with the β1 entries of the deltas and of the current invariants
    present, the contract is rejected when the β1 delta is negative;
    otherwise it is accepted iff [current.β1 + delta.β1 <= max_betti1],
    and any non-negative delta is accepted when ["max_betti1"] is
    absent. *)
Theorem acr_verify_contract_spec (current : Invariants) (d : deltas) (cs : constraints)
    (G : Graph) (b1 d1 : Z) :
  betti current !! beta1 = Some b1 ->
  d !! betti_group ≫= (fun kv => kv !! beta1) = Some d1 ->
  (d1 < 0 -> acr_verify_contract current d cs G = Some false) /\
  (0 <= d1 -> forall max_b1, cs !! max_betti1_key = Some max_b1 ->
     acr_verify_contract current d cs G = Some (bool_decide (b1 + d1 <= max_b1))) /\
  (0 <= d1 -> cs !! max_betti1_key = None -> acr_verify_contract current d cs G = Some true).
Proof.
  intros Hb1 Hd1. unfold acr_verify_contract. rewrite Hd1.
  split; [|split].
  - intros Hneg. by rewrite decide_True.
  - intros Hpos max_b1 Hmax. rewrite decide_False by lia. by rewrite Hb1, Hmax.
  - intros Hpos Hmax. rewrite decide_False by lia. by rewrite Hb1, Hmax.
Qed.

(** ** Kernel steps *)

Lemma Invariants_eq (x y : Invariants) : betti x = betti y -> x = y.
Proof. destruct x, y. simpl. by intros ->. Qed.

Lemma execute_cons (k : Kernel) (op : Operator) (rest : list Operator) (cs : constraints) :
  execute k (op :: rest) cs =
  match verify_contract op (invariants k) (algebraic_effect op (invariants k) (carrier k)) cs
          (carrier k) with
  | None => KeyError k
  | Some false => ContractViolation (op_name op) (algebraic_effect op (invariants k) (carrier k)) k
  | Some true => execute (commit op (algebraic_effect op (invariants k) (carrier k)) k) rest cs
  end.
Proof. reflexivity. Qed.

(** After a committed operator, the invariants are the measurement of
    the new carrier (every operator has [force_measure = True]). *)
Lemma commit_measured (op : Operator) (d : deltas) (k : Kernel) :
  invariants (commit op d k) = measure_invariants (carrier (commit op d k)).
Proof.
  unfold commit. destruct op; simpl; case_decide as Heq; try done;
  symmetry; apply Invariants_eq; exact Heq.
Qed.

(** ** C8: [I_CalculateH1Graph] *)

(** C8: [I_CalculateH1Graph] predicts no delta, always accepts and does
    not touch the carrier; so one [I_CalculateH1Graph] step on a kernel
    whose invariants are the carrier's measurement completes with the
    invariants and the carrier unchanged. *)
Theorem calculate_h1_idempotent :
  (forall p current G, h1_algebraic_effect p current G = ∅) /\
  (forall current d cs G, h1_verify_contract current d cs G = Some true) /\
  (forall p G, h1_realize_geometrically p G = G) /\
  (forall (k : Kernel) (p : params) (cs : constraints),
     invariants k = measure_invariants (carrier k) ->
     exists k', execute k [I_CalculateH1Graph p] cs = Completed k' /\
                invariants k' = invariants k /\ carrier k' = carrier k).
Proof.
  split; [done|]. split; [done|]. split; [done|].
  intros k p cs Hk. eexists. split; [reflexivity|].
  simpl. split; [|done].
  assert (Hcopy : apply_deltas (invariants k) ∅ = invariants k).
  { unfold apply_deltas. rewrite map_fold_empty. rewrite Hk.
    unfold Invariants_copy, Invariants_init.
    rewrite decide_False by apply measure_nonempty.
    by destruct (measure_invariants (carrier k)). }
  case_decide; [exact Hcopy | by rewrite Hk].
Qed.

(** ** Runs of [execute] *)

Lemma execute_completed_log (k k' : Kernel) (ops : list Operator) (cs : constraints) :
  execute k ops cs = Completed k' -> length (log k') = (length (log k) + length ops)%nat.
Proof.
  revert k. induction ops as [|op rest IH]; intros k H; simpl in H.
  - injection H as <-. simpl. lia.
  - destruct (verify_contract _ _ _ _ _) as [[|]|]; try discriminate.
    apply IH in H. rewrite H. simpl. rewrite length_app. simpl. lia.
Qed.

(** A contract violation leaves the kernel exactly as the operators
    before the failing one left it. *)
Lemma execute_violation_split (k : Kernel) (ops : list Operator) (cs : constraints)
    (n : string) (d : deltas) (k' : Kernel) :
  execute k ops cs = ContractViolation n d k' ->
  exists pre op rest,
    ops = pre ++ op :: rest /\
    execute k pre cs = Completed k' /\
    n = op_name op /\
    d = algebraic_effect op (invariants k') (carrier k') /\
    verify_contract op (invariants k') d cs (carrier k') = Some false.
Proof.
  revert k. induction ops as [|op rest IH]; intros k H; simpl in H; [discriminate|].
  destruct (verify_contract _ _ _ _ _) as [[|]|] eqn:Hv; try discriminate.
  - apply IH in H as (pre & op' & rest' & -> & Hpre & Hn & Hd & Hv').
    exists (op :: pre), op', rest'. repeat split; try done.
    simpl. by rewrite Hv.
  - injection H as <- <- <-. exists [], op, rest. repeat split; done.
Qed.

Lemma execute_measured (k : Kernel) (ops : list Operator) (cs : constraints) :
  invariants k = measure_invariants (carrier k) ->
  invariants (outcome_kernel (execute k ops cs)) =
  measure_invariants (carrier (outcome_kernel (execute k ops cs))).
Proof.
  revert k. induction ops as [|op rest IH]; intros k Hk; simpl; [done|].
  destruct (verify_contract _ _ _ _ _) as [[|]|]; simpl; try done.
  apply IH, commit_measured.
Qed.

Lemma reachable_measured (k : Kernel) :
  reachable k -> invariants k = measure_invariants (carrier k).
Proof.
  induction 1 as [G|k ops cs _ IH]; [done|]. by apply execute_measured.
Qed.

(** ** C4: contract violations *)

(** C4: when [execute] stops with a contract violation, the violation
    carries the failing operator's name and its computed deltas, and
    the kernel (carrier, invariants and log) is exactly the one that
    running the strictly earlier operators produces: one log entry per
    earlier operator, none for the failing one. *)
Theorem execute_violation_state (k : Kernel) (ops : list Operator) (cs : constraints)
    (n : string) (d : deltas) (k' : Kernel) :
  execute k ops cs = ContractViolation n d k' ->
  exists pre op rest,
    ops = pre ++ op :: rest /\
    execute k pre cs = Completed k' /\
    n = op_name op /\
    d = algebraic_effect op (invariants k') (carrier k') /\
    verify_contract op (invariants k') d cs (carrier k') = Some false /\
    length (log k') = (length (log k) + length pre)%nat.
Proof.
  intros H. apply execute_violation_split in H as (pre & op & rest & Hops & Hpre & Hn & Hd & Hv).
  exists pre, op, rest. repeat split; try done.
  by apply execute_completed_log in Hpre.
Qed.

(** ** C5: invariants after a successful run *)

(** C5: on every kernel built by the public API, a run of [execute]
    that completes leaves invariants equal to the measurement of the
    final carrier: β0 is its component count and β1 is
    edges - nodes + components. *)
Theorem execute_success_matches_measurement (k : Kernel) (ops : list Operator)
    (cs : constraints) (k' : Kernel) :
  reachable k ->
  execute k ops cs = Completed k' ->
  invariants k' = measure_invariants (carrier k') /\
  betti (invariants k') !! beta0 =
    Some (Z.of_nat (number_connected_components (carrier k'))) /\
  betti (invariants k') !! beta1 =
    Some (Z.of_nat (number_of_edges (carrier k')) - Z.of_nat (number_of_nodes (carrier k'))
          + Z.of_nat (number_connected_components (carrier k'))).
Proof.
  intros Hr Hrun.
  assert (Hm : invariants k' = measure_invariants (carrier k')).
  { pose proof (execute_measured k ops cs (reachable_measured k Hr)) as H.
    by rewrite Hrun in H. }
  rewrite Hm, measured_betti. split; [done|]. split; reflexivity.
Qed.

(** ** [I_AddCycleRedundancy.algebraic_effect] *)

Lemma acr_fold_beta1_nonneg (ci : gmap node nat) (es : list (node * node)) (acc : Z * Z) :
  0 <= fst acc -> 0 <= fst (foldl (acr_step ci) acc es).
Proof.
  revert acc. induction es as [|[u v] es IH]; intros [a b] Ha; simpl; [done|].
  apply IH. unfold acr_step.
  destruct (ci !! u), (ci !! v); try destruct (Nat.eqb _ _); simpl in *; lia.
Qed.

Lemma acr_effect_values (p : params) (current : Invariants) (G : Graph) :
  acr_algebraic_effect p current G =
  betti_deltas (fst (foldl (acr_step (comp_index_of G)) (0, 0) (param_edges p)))
               (snd (foldl (acr_step (comp_index_of G)) (0, 0) (param_edges p))).
Proof.
  unfold acr_algebraic_effect. by destruct (foldl _ _ _).
Qed.

Lemma betti_deltas_beta1 (d1 d0 : Z) :
  betti_deltas d1 d0 !! betti_group ≫= (fun kv => kv !! beta1) = Some d1.
Proof. reflexivity. Qed.

Lemma betti_deltas_beta0 (d1 d0 : Z) :
  betti_deltas d1 d0 !! betti_group ≫= (fun kv => kv !! beta0) = Some d0.
Proof. reflexivity. Qed.

(** ** C9: the negative-β1 branch is unreachable *)

(** C9: the β1 delta computed by [I_AddCycleRedundancy.algebraic_effect]
    is never negative, so on its own deltas [verify_contract] only
    checks the ["max_betti1"] bound; within [execute] (on a kernel built
    by the public API) an [I_AddCycleRedundancy] violation always means
    that ["max_betti1"] is present and exceeded. *)
Theorem acr_rejected_only_by_bound :
  (forall (p : params) (current : Invariants) (G : Graph) (cs : constraints) (b1 : Z),
     betti current !! beta1 = Some b1 ->
     exists d1,
       acr_algebraic_effect p current G !! betti_group ≫= (fun kv => kv !! beta1) = Some d1 /\
       0 <= d1 /\
       acr_verify_contract current (acr_algebraic_effect p current G) cs G =
         Some (match cs !! max_betti1_key with
               | None => true
               | Some max_b1 => bool_decide (b1 + d1 <= max_b1)
               end)) /\
  (forall (k : Kernel) (ops : list Operator) (cs : constraints) (d : deltas) (k' : Kernel),
     reachable k ->
     execute k ops cs = ContractViolation "I_AddCycleRedundancy" d k' ->
     exists max_b1 b1 d1,
       cs !! max_betti1_key = Some max_b1 /\
       betti (invariants k') !! beta1 = Some b1 /\
       d !! betti_group ≫= (fun kv => kv !! beta1) = Some d1 /\
       0 <= d1 /\ max_b1 < b1 + d1).
Proof.
  assert (Hpos : forall p current G, exists d1,
    acr_algebraic_effect p current G !! betti_group ≫= (fun kv => kv !! beta1) = Some d1 /\
    0 <= d1).
  { intros p current G. rewrite acr_effect_values, betti_deltas_beta1.
    eexists. split; [reflexivity|]. by apply acr_fold_beta1_nonneg. }
  assert (Hver : forall p current G cs b1, betti current !! beta1 = Some b1 ->
    exists d1,
      acr_algebraic_effect p current G !! betti_group ≫= (fun kv => kv !! beta1) = Some d1 /\
      0 <= d1 /\
      acr_verify_contract current (acr_algebraic_effect p current G) cs G =
        Some (match cs !! max_betti1_key with
              | None => true
              | Some max_b1 => bool_decide (b1 + d1 <= max_b1)
              end)).
  { intros p current G cs b1 Hb1. destruct (Hpos p current G) as (d1 & Hd1 & Hnn).
    exists d1. split; [done|]. split; [done|].
    unfold acr_verify_contract. rewrite Hd1, decide_False by lia. by rewrite Hb1. }
  split; [exact Hver|].
  intros k ops cs d k' Hr Hrun.
  apply execute_violation_split in Hrun as (pre & op & rest & _ & Hpre & Hn & Hd & Hv).
  assert (Hm : invariants k' = measure_invariants (carrier k')).
  { pose proof (execute_measured k pre cs (reachable_measured k Hr)) as H.
    by rewrite Hpre in H. }
  destruct op as [p|p]; [|discriminate]. simpl in Hd, Hv. subst d.
  destruct (measure_invariants_betti (carrier k')) as (_ & Hb1 & _).
  rewrite <- Hm in Hb1.
  destruct (Hver p (invariants k') (carrier k') cs _ Hb1) as (d1 & Hd1 & Hnn & Hv').
  rewrite Hv' in Hv. injection Hv as Hv.
  destruct (cs !! max_betti1_key) as [max_b1|]; [|discriminate].
  apply bool_decide_eq_false in Hv.
  eexists _, _, d1. repeat split; try done. lia.
Qed.

(** ** The component snapshot *)

Lemma acr_step_from_zero (ci : gmap node nat) (acc : Z * Z) (e : node * node) :
  acr_step ci acc e = (fst acc + fst (acr_step ci (0, 0) e), snd acc + snd (acr_step ci (0, 0) e)).
Proof.
  destruct acc as [a b], e as [u v]. unfold acr_step.
  destruct (ci !! u), (ci !! v); try destruct (Nat.eqb _ _); simpl; f_equal; lia.
Qed.

Lemma foldl_acr_step_sum (ci : gmap node nat) (es : list (node * node)) (acc : Z * Z) :
  foldl (acr_step ci) acc es =
  (fst acc + fst (sum_pairs (map (acr_step ci (0, 0)) es)),
   snd acc + snd (sum_pairs (map (acr_step ci (0, 0)) es))).
Proof.
  revert acc. induction es as [|e es IH]; intros [a b]; cbn [foldl map sum_pairs foldr fst snd].
  - f_equal; lia.
  - rewrite IH, (acr_step_from_zero ci (a, b) e). unfold sum_pairs. cbn [fst snd]. f_equal; lia.
Qed.

Lemma effect_values_betti_deltas (d1 d0 : Z) : effect_values (betti_deltas d1 d0) = (d1, d0).
Proof. reflexivity. Qed.

(** ** Components and component indices *)

Lemma neighbors_nodes (G : Graph) (v w : node) :
  graph_wf G -> w ∈ neighbors G v -> w ∈ g_nodes G.
Proof.
  intros Hwf Hw. apply list_elem_of_In, in_flat_map in Hw as [[a b] [Hab Hw]].
  apply list_elem_of_In in Hab. destruct (Hwf a b Hab) as [Ha Hb].
  apply list_elem_of_In in Hw.
  destruct (Nat.eqb a v), (Nat.eqb b v); simpl in Hw; set_solver.
Qed.

Lemma bfs_seen (G : Graph) (fuel : nat) (seen frontier : list node) (x : node) :
  x ∈ seen -> x ∈ plain_bfs G fuel seen frontier.
Proof.
  revert seen frontier. induction fuel as [|f IH]; intros seen frontier Hx; simpl; [done|].
  destruct (remove_dups _) as [|y ys]; [done|]. apply IH. set_solver.
Qed.

Lemma bfs_nodes (G : Graph) (fuel : nat) (seen frontier : list node) (x : node) :
  graph_wf G -> (forall y, y ∈ seen -> y ∈ g_nodes G) ->
  x ∈ plain_bfs G fuel seen frontier -> x ∈ g_nodes G.
Proof.
  intros Hwf. revert seen frontier.
  induction fuel as [|f IH]; intros seen frontier Hseen Hx; simpl in Hx; [auto|].
  destruct (remove_dups _) as [|y ys] eqn:E; [auto|].
  refine (IH _ _ _ Hx). intros z Hz. apply elem_of_app in Hz as [Hz|Hz]; [auto|].
  rewrite <- E in Hz. apply elem_of_remove_dups, list_elem_of_filter in Hz as [_ Hz].
  apply list_elem_of_In, in_flat_map in Hz as [w [_ Hz]].
  apply list_elem_of_In in Hz. by eapply neighbors_nodes.
Qed.

Lemma cc_go_cover (G : Graph) (vs seen : list node) (v : node) :
  v ∈ vs -> v ∈ seen \/ exists c, c ∈ cc_go G vs seen /\ v ∈ c.
Proof.
  revert seen. induction vs as [|a vs IH]; intros seen Hv; [set_solver|].
  simpl. apply elem_of_cons in Hv as [<-|Hv].
  - destruct (mem v seen) eqn:Hm.
    + left. by apply mem_spec.
    + right. eexists. split; [left|]. by apply bfs_seen; left.
  - destruct (mem a seen) eqn:Hm; [by apply IH|].
    destruct (IH (seen ++ plain_bfs G (number_of_nodes G) [a] [a]) Hv)
      as [Hs|(c & Hc & Hvc)].
    + apply elem_of_app in Hs as [Hs|Hs]; [by left|].
      right. eexists. split; [left|]. exact Hs.
    + right. exists c. split; [by right|done].
Qed.

Lemma cc_go_nodes (G : Graph) (vs seen : list node) (c : list node) (x : node) :
  graph_wf G -> (forall v, v ∈ vs -> v ∈ g_nodes G) ->
  c ∈ cc_go G vs seen -> x ∈ c -> x ∈ g_nodes G.
Proof.
  intros Hwf. revert seen. induction vs as [|a vs IH]; intros seen Hvs Hc Hx; simpl in Hc.
  - set_solver.
  - destruct (mem a seen).
    + apply (IH seen); [set_solver|done|done].
    + apply elem_of_cons in Hc as [->|Hc].
      * apply (bfs_nodes G (number_of_nodes G) [a] [a] x Hwf); [|done]. set_solver.
      * apply (IH (seen ++ plain_bfs G (number_of_nodes G) [a] [a])); [set_solver|done|done].
Qed.

Lemma index_loop_dom (c : list node) (i : nat) (ci : gmap node nat) (u : node) :
  is_Some (foldl (fun ci' v => <[v := i]> ci') ci c !! u) <-> is_Some (ci !! u) \/ u ∈ c.
Proof.
  revert ci. induction c as [|v c IH]; intros ci; simpl.
  - set_solver.
  - rewrite IH, lookup_insert_is_Some', elem_of_cons. naive_solver.
Qed.

Lemma comp_loop_dom (cs : list (list node)) (i : nat) (ci : gmap node nat) (u : node) :
  is_Some (snd (foldl (fun (acc : nat * gmap node nat) comp =>
                         let '(i, ci) := acc in
                         (S i, foldl (fun ci' v => <[v := i]> ci') ci comp))
                      (i, ci) cs) !! u) <->
  is_Some (ci !! u) \/ exists c, c ∈ cs /\ u ∈ c.
Proof.
  revert i ci. induction cs as [|c cs IH]; intros i ci; simpl.
  - set_solver.
  - rewrite IH, index_loop_dom. setoid_rewrite elem_of_cons. naive_solver.
Qed.

(** A node has a component index iff it is a node of the carrier. *)
Lemma comp_index_present (G : Graph) (u : node) :
  graph_wf G -> is_Some (comp_index_of G !! u) <-> u ∈ g_nodes G.
Proof.
  intros Hwf. unfold comp_index_of. rewrite comp_loop_dom, lookup_empty. split.
  - intros [[? H]|(c & Hc & Hu)]; [discriminate|].
    by apply (cc_go_nodes G (g_nodes G) [] c u Hwf).
  - intros Hu. destruct (cc_go_cover G (g_nodes G) [] u Hu) as [H|H]; [set_solver|].
    by right.
Qed.

Lemma acr_step_contribution (G : Graph) (e : node * node) :
  graph_wf G -> acr_step (comp_index_of G) (0, 0) e = edge_contribution G e.
Proof.
  intros Hwf. destruct e as [u v]. unfold acr_step, edge_contribution.
  assert (Hmem : forall w, mem w (g_nodes G) = true <-> is_Some (comp_index_of G !! w)).
  { intros w. by rewrite mem_spec, comp_index_present. }
  destruct (comp_index_of G !! u) as [a|] eqn:Hu, (comp_index_of G !! v) as [b|] eqn:Hv.
  - assert (mem u (g_nodes G) = true) as -> by (apply Hmem; rewrite Hu; eauto).
    assert (mem v (g_nodes G) = true) as -> by (apply Hmem; rewrite Hv; eauto).
    simpl. destruct (Nat.eqb_spec a b) as [->|Hab].
    + by rewrite decide_True.
    + rewrite decide_False; [done|]. congruence.
  - assert (mem v (g_nodes G) = false) as ->.
    { apply not_true_is_false. rewrite Hmem, Hv. by intros [? ?]. }
    by rewrite andb_false_r.
  - assert (mem u (g_nodes G) = false) as ->.
    { apply not_true_is_false. rewrite Hmem, Hu. by intros [? ?]. }
    done.
  - assert (mem u (g_nodes G) = false) as ->.
    { apply not_true_is_false. rewrite Hmem, Hu. by intros [? ?]. }
    done.
Qed.

Lemma path_graph4_wf : graph_wf path_graph4.
Proof.
  intros a b H. apply list_elem_of_In in H. simpl in H.
  destruct H as [H|[H|[H|[]]]]; injection H as <- <-;
  split; apply list_elem_of_In; simpl; tauto.
Qed.

(** ** C1: per-edge contributions of [algebraic_effect] *)

(** C1 (as stated, refuted): on the 4-node path, which contains neither
    node 5 nor node 6, [edges=[(5,6)]] gives a β0 delta of 0, not -1:
    an edge with an absent endpoint contributes nothing. *)
Lemma acr_absent_endpoints_counterexample :
  effect_values (acr_algebraic_effect (mkParams (Some [(5, 6)]%nat))
                   (measure_invariants path_graph4) path_graph4) = (0, 0) /\
  snd (effect_values (acr_algebraic_effect (mkParams (Some [(5, 6)]%nat))
                        (measure_invariants path_graph4) path_graph4)) <> -1.
Proof. vm_compute. split; [reflexivity | discriminate]. Qed.

(** C1 (amended): the deltas of [I_AddCycleRedundancy.algebraic_effect]
    are the sums over the candidate edges of: +1 to β1 when both
    endpoints are nodes of the carrier in the same component, -1 to β0
    when both are nodes in different components, and nothing when an
    endpoint is absent from the carrier. *)
Theorem acr_effect_per_edge (p : params) (current : Invariants) (G : Graph) :
  graph_wf G ->
  acr_algebraic_effect p current G =
  betti_deltas (fst (sum_pairs (map (edge_contribution G) (param_edges p))))
               (snd (sum_pairs (map (edge_contribution G) (param_edges p)))).
Proof.
  intros Hwf. rewrite acr_effect_values, foldl_acr_step_sum. cbn [fst snd].
  rewrite (map_ext _ _ (fun e => acr_step_contribution G e Hwf)).
  by rewrite !Z.add_0_l.
Qed.

Lemma acr_effect_per_edge_witness :
  graph_wf path_graph4 /\
  acr_algebraic_effect (mkParams (Some [(0, 3); (5, 6)]%nat))
    (measure_invariants path_graph4) path_graph4 = betti_deltas 1 0.
Proof.
  split; [exact path_graph4_wf|].
  rewrite (acr_effect_per_edge _ _ _ path_graph4_wf). vm_compute. reflexivity.
Defined.

(** ** C2: one snapshot of the partition per call *)

(** C2: [algebraic_effect] scores every candidate edge against the
    partition of the carrier as it is at the start of the call: its
    deltas are the sums of the single-edge deltas on that same carrier.
    On three isolated nodes with edges (0,1), (1,2), (0,2) this gives
    (β1, β0) = (0, -3), whereas scoring against a carrier updated
    after each edge gives (1, -2), the change actually measured after
    the edges are added. *)
Theorem acr_effect_snapshot (p : params) (current : Invariants) (G : Graph) :
  effect_values (acr_algebraic_effect p current G) =
    sum_pairs (map (fun e => effect_values (acr_algebraic_effect (mkParams (Some [e])) current G))
                   (param_edges p)) /\
  effect_values (acr_algebraic_effect (mkParams (Some chain_edges)) current three_isolated) =
    (0, -3) /\
  incremental_effect_pair three_isolated chain_edges = (1, -2) /\
  betti (measure_invariants three_isolated) !! beta0 = Some 3 /\
  betti (measure_invariants three_isolated) !! beta1 = Some 0 /\
  betti (measure_invariants
           (acr_realize_geometrically (mkParams (Some chain_edges)) three_isolated)) !! beta0
    = Some 1 /\
  betti (measure_invariants
           (acr_realize_geometrically (mkParams (Some chain_edges)) three_isolated)) !! beta1
    = Some 1.
Proof.
  split.
  - rewrite acr_effect_values, effect_values_betti_deltas, foldl_acr_step_sum.
    cbn [fst snd]. rewrite !Z.add_0_l.
    assert (Hsingle : forall e, effect_values (acr_algebraic_effect (mkParams (Some [e])) current G)
                                = acr_step (comp_index_of G) (0, 0) e).
    { intros e. rewrite acr_effect_values, effect_values_betti_deltas.
      change (foldl (acr_step (comp_index_of G)) (0, 0) (param_edges (mkParams (Some [e]))))
        with (acr_step (comp_index_of G) (0, 0) e).
      by destruct (acr_step (comp_index_of G) (0, 0) e). }
    rewrite (map_ext _ _ Hsingle). by destruct (sum_pairs _).
  - vm_compute. repeat split; reflexivity.
Qed.

(** ** Witnesses *)

Lemma acr_verify_contract_spec_witness :
  betti (measure_invariants path_graph4) !! beta1 = Some 0 /\
  betti_deltas 1 0 !! betti_group ≫= (fun kv => kv !! beta1) = Some 1 /\
  acr_verify_contract (measure_invariants path_graph4) (betti_deltas 1 0)
    {[ max_betti1_key := 0 ]} path_graph4 = Some (bool_decide (0 + 1 <= 0)).
Proof.
  split; [reflexivity|]. split; [reflexivity|].
  destruct (acr_verify_contract_spec (measure_invariants path_graph4) (betti_deltas 1 0)
              {[ max_betti1_key := 0 ]} path_graph4 0 1 eq_refl eq_refl) as (_ & H & _).
  apply H; [lia | reflexivity].
Defined.

Lemma execute_violation_state_witness :
  three_ops_run = ContractViolation "I_AddCycleRedundancy" (betti_deltas 1 0)
                    (outcome_kernel three_ops_run) /\
  length (log (outcome_kernel three_ops_run)) = 2%nat /\
  g_edges (carrier (outcome_kernel three_ops_run)) = [(0, 1); (1, 2); (2, 3); (0, 3); (0, 2)]%nat /\
  exists pre op rest,
    three_ops = pre ++ op :: rest /\
    execute (TopyKernel_init path_graph4) pre three_ops_constraints
      = Completed (outcome_kernel three_ops_run) /\
    "I_AddCycleRedundancy" = op_name op /\
    betti_deltas 1 0 = algebraic_effect op (invariants (outcome_kernel three_ops_run))
                         (carrier (outcome_kernel three_ops_run)) /\
    verify_contract op (invariants (outcome_kernel three_ops_run)) (betti_deltas 1 0)
      three_ops_constraints (carrier (outcome_kernel three_ops_run)) = Some false /\
    length (log (outcome_kernel three_ops_run)) =
      (length (log (TopyKernel_init path_graph4)) + length pre)%nat.
Proof.
  assert (H : three_ops_run = ContractViolation "I_AddCycleRedundancy" (betti_deltas 1 0)
                                (outcome_kernel three_ops_run)) by (vm_compute; reflexivity).
  split; [exact H|]. split; [vm_compute; reflexivity|]. split; [vm_compute; reflexivity|].
  exact (execute_violation_state _ _ _ _ _ _ H).
Defined.

Lemma execute_success_matches_measurement_witness :
  reachable (TopyKernel_init path_graph4) /\
  demo_run = Completed (outcome_kernel demo_run) /\
  invariants (outcome_kernel demo_run) = measure_invariants (carrier (outcome_kernel demo_run)).
Proof.
  assert (Hr : reachable (TopyKernel_init path_graph4)) by apply reachable_init.
  assert (H : demo_run = Completed (outcome_kernel demo_run)) by (vm_compute; reflexivity).
  split; [exact Hr|]. split; [exact H|].
  exact (proj1 (execute_success_matches_measurement _ _ _ _ Hr H)).
Defined.

Lemma apply_deltas_pure_witness :
  demo_heap !! 1%positive = Some default_betti /\ default_betti ≠ ∅ /\
  snd (apply_deltas_heap demo_heap 1%positive demo_deltas) ≠ 1%positive /\
  fst (apply_deltas_heap demo_heap 1%positive demo_deltas) !! 1%positive = Some default_betti.
Proof.
  split; [reflexivity|]. split; [exact default_betti_nonempty|].
  pose proof (apply_deltas_pure demo_heap 1%positive default_betti demo_deltas
                eq_refl default_betti_nonempty) as H.
  revert H. destruct (apply_deltas_heap demo_heap 1%positive demo_deltas) as [h' out].
  intros (Hfresh & Hself & _). simpl. split; [|exact Hself].
  intros ->. apply Hfresh. reflexivity.
Defined.

Lemma calculate_h1_idempotent_witness :
  invariants (TopyKernel_init path_graph4) = measure_invariants (carrier (TopyKernel_init path_graph4)) /\
  exists k', execute (TopyKernel_init path_graph4) [I_CalculateH1Graph (mkParams None)] ∅
               = Completed k' /\
             invariants k' = invariants (TopyKernel_init path_graph4) /\
             carrier k' = carrier (TopyKernel_init path_graph4).
Proof.
  split; [reflexivity|].
  destruct calculate_h1_idempotent as (_ & _ & _ & H). apply H. reflexivity.
Defined.

Lemma acr_rejected_only_by_bound_witness :
  reachable (TopyKernel_init path_graph4) /\
  three_ops_run = ContractViolation "I_AddCycleRedundancy" (betti_deltas 1 0)
                    (outcome_kernel three_ops_run) /\
  betti (measure_invariants path_graph4) !! beta1 = Some 0 /\
  (exists max_b1 b1 d1,
     three_ops_constraints !! max_betti1_key = Some max_b1 /\
     betti (invariants (outcome_kernel three_ops_run)) !! beta1 = Some b1 /\
     betti_deltas 1 0 !! betti_group ≫= (fun kv => kv !! beta1) = Some d1 /\
     0 <= d1 /\ max_b1 < b1 + d1) /\
  (exists d1,
     acr_algebraic_effect (mkParams (Some [(0, 3)]%nat)) (measure_invariants path_graph4)
       path_graph4 !! betti_group ≫= (fun kv => kv !! beta1) = Some d1 /\ 0 <= d1 /\
     acr_verify_contract (measure_invariants path_graph4)
       (acr_algebraic_effect (mkParams (Some [(0, 3)]%nat)) (measure_invariants path_graph4)
          path_graph4) three_ops_constraints path_graph4 =
       Some (match three_ops_constraints !! max_betti1_key with
             | None => true
             | Some max_b1 => bool_decide (0 + d1 <= max_b1)
             end)).
Proof.
  assert (Hr : reachable (TopyKernel_init path_graph4)) by apply reachable_init.
  assert (H : three_ops_run = ContractViolation "I_AddCycleRedundancy" (betti_deltas 1 0)
                                (outcome_kernel three_ops_run)) by (vm_compute; reflexivity).
  assert (Hb1 : betti (measure_invariants path_graph4) !! beta1 = Some 0) by reflexivity.
  destruct acr_rejected_only_by_bound as [H1 H2].
  split; [exact Hr|]. split; [exact H|]. split; [exact Hb1|]. split.
  - exact (H2 _ _ _ _ _ Hr H).
  - exact (H1 _ _ _ _ _ Hb1).
Defined.

(* ================================================================== *)
(** * Further properties of the code *)

(** ** Graph edits: [add_node], [add_edge], [realize_geometrically] *)

Lemma add_node_mono (G : Graph) (u : node) :
  g_nodes G `prefix_of` g_nodes (add_node G u) /\ g_edges (add_node G u) = g_edges G.
Proof.
  unfold add_node. destruct (mem u (g_nodes G)); simpl; split; try done.
  by exists [u].
Qed.

Lemma add_node_elem (G : Graph) (u : node) : u ∈ g_nodes (add_node G u).
Proof.
  unfold add_node. destruct (mem u (g_nodes G)) eqn:E; [by apply mem_spec|].
  simpl. set_solver.
Qed.

Lemma add_node_present (G : Graph) (u : node) : u ∈ g_nodes G -> add_node G u = G.
Proof. intros Hu. unfold add_node. apply mem_spec in Hu. by rewrite Hu. Qed.

Lemma add_edge_mono (G : Graph) (e : node * node) :
  g_nodes G `prefix_of` g_nodes (add_edge G e) /\ g_edges G `prefix_of` g_edges (add_edge G e).
Proof.
  destruct e as [u v]. unfold add_edge.
  destruct (add_node_mono G u) as [Hn1 He1], (add_node_mono (add_node G u) v) as [Hn2 He2].
  destruct (has_edge _ u v); simpl; split.
  - by trans (g_nodes (add_node G u)).
  - rewrite He2, He1. done.
  - by trans (g_nodes (add_node G u)).
  - rewrite He2, He1. by exists [(u, v)].
Qed.

Lemma has_edge_prefix (G G' : Graph) (u v : node) :
  g_edges G `prefix_of` g_edges G' -> has_edge G u v = true -> has_edge G' u v = true.
Proof.
  intros [l Hl] H. unfold has_edge in *. rewrite Hl, existsb_app, H. done.
Qed.

Lemma add_edge_has (G : Graph) (u v : node) : has_edge (add_edge G (u, v)) u v = true.
Proof.
  unfold add_edge. destruct (has_edge (add_node (add_node G u) v) u v) eqn:E; [done|].
  unfold has_edge. simpl. rewrite existsb_app. simpl.
  rewrite !Nat.eqb_refl. by rewrite orb_true_r.
Qed.

Lemma add_edge_nodes (G : Graph) (u v : node) :
  u ∈ g_nodes (add_edge G (u, v)) /\ v ∈ g_nodes (add_edge G (u, v)).
Proof.
  unfold add_edge.
  assert (Hu : u ∈ g_nodes (add_node (add_node G u) v)).
  { destruct (add_node_mono (add_node G u) v) as [[l Hl] _]. rewrite Hl.
    apply elem_of_app. left. apply add_node_elem. }
  assert (Hv := add_node_elem (add_node G u) v).
  destruct (has_edge _ u v); simpl; done.
Qed.

Lemma foldl_add_edge_mono (G : Graph) (es : list (node * node)) :
  g_nodes G `prefix_of` g_nodes (foldl add_edge G es) /\
  g_edges G `prefix_of` g_edges (foldl add_edge G es).
Proof.
  revert G. induction es as [|e es IH]; intros G; simpl; [done|].
  destruct (add_edge_mono G e) as [H1 H2], (IH (add_edge G e)) as [H3 H4].
  split; by etrans.
Qed.

Lemma foldl_add_edge_has (G : Graph) (es : list (node * node)) (u v : node) :
  (u, v) ∈ es -> has_edge (foldl add_edge G es) u v = true /\
                 u ∈ g_nodes (foldl add_edge G es) /\ v ∈ g_nodes (foldl add_edge G es).
Proof.
  revert G. induction es as [|e es IH]; intros G Hin; [set_solver|].
  simpl. apply elem_of_cons in Hin as [<-|Hin]; [|by apply IH].
  destruct (foldl_add_edge_mono (add_edge G (u, v)) es) as [[l Hl] He].
  destruct (add_edge_nodes G u v) as [Hu Hv].
  split; [by eapply has_edge_prefix; [exact He | apply add_edge_has]|].
  rewrite Hl. set_solver.
Qed.

Lemma acr_realize_unfold (p : params) (G : Graph) :
  acr_realize_geometrically p G =
  add_edges_from (foldl endpoint_step G (param_edges p)) (param_edges p).
Proof. reflexivity. Qed.

(** The endpoint loop of [realize_geometrically] only adds nodes. *)
Lemma endpoint_loop_mono (G : Graph) (es : list (node * node)) :
  g_nodes G `prefix_of` g_nodes (foldl endpoint_step G es) /\
  g_edges (foldl endpoint_step G es) = g_edges G.
Proof.
  revert G. induction es as [|e es IH]; intros G; simpl; [done|].
  assert (H : g_nodes G `prefix_of` g_nodes (endpoint_step G e) /\
              g_edges (endpoint_step G e) = g_edges G).
  { destruct e as [u v]. unfold endpoint_step.
    set (G'' := if mem u (g_nodes G) then G else add_node G u).
    assert (H1 : g_nodes G `prefix_of` g_nodes G'' /\ g_edges G'' = g_edges G).
    { unfold G''. destruct (mem u _); [done|apply add_node_mono]. }
    destruct (mem v (g_nodes G'')); [exact H1|].
    destruct (add_node_mono G'' v) as [H2 H3].
    split; [etrans; [apply H1|exact H2]|]. rewrite H3. apply H1. }
  destruct (IH (endpoint_step G e)) as [H3 H4].
  split; [etrans; [apply H|exact H3]|]. rewrite H4. apply H.
Qed.

Lemma endpoint_loop_present (G : Graph) (es : list (node * node)) :
  (forall u v, (u, v) ∈ es -> u ∈ g_nodes G /\ v ∈ g_nodes G) ->
  foldl endpoint_step G es = G.
Proof.
  induction es as [|[u v] es IH]; intros Hes; cbn [foldl]; [done|].
  destruct (Hes u v) as [Hu Hv]; [set_solver|].
  assert (endpoint_step G (u, v) = G) as ->.
  { unfold endpoint_step. apply mem_spec in Hu, Hv. by rewrite Hu, Hv. }
  apply IH. intros a b Hab. apply Hes. set_solver.
Qed.
Lemma foldl_add_edge_present (G : Graph) (es : list (node * node)) :
  (forall u v, (u, v) ∈ es -> has_edge G u v = true /\ u ∈ g_nodes G /\ v ∈ g_nodes G) ->
  foldl add_edge G es = G.
Proof.
  induction es as [|[u v] es IH]; intros Hes; cbn [foldl]; [done|].
  destruct (Hes u v) as (He & Hu & Hv); [set_solver|].
  assert (add_edge G (u, v) = G) as ->.
  { unfold add_edge. rewrite (add_node_present G u Hu), (add_node_present G v Hv). by rewrite He. }
  apply IH. intros a b Hab. apply Hes. set_solver.
Qed.

Lemma add_node_wf (G : Graph) (u : node) : graph_wf G -> graph_wf (add_node G u).
Proof.
  intros Hwf a b Hab. destruct (add_node_mono G u) as [[l Hl] He].
  rewrite He in Hab. rewrite Hl. destruct (Hwf a b Hab). set_solver.
Qed.

Lemma add_edge_wf (G : Graph) (e : node * node) : graph_wf G -> graph_wf (add_edge G e).
Proof.
  intros Hwf. destruct e as [u v].
  pose proof (add_edge_nodes G u v) as [Hu Hv]. revert Hu Hv. unfold add_edge.
  pose proof (add_node_wf _ v (add_node_wf G u Hwf)) as Hwf1.
  destruct (has_edge _ u v); [done|]. intros Hu Hv a b Hab. simpl in *.
  apply elem_of_app in Hab as [Hab|Hab]; [by apply Hwf1|].
  apply list_elem_of_singleton in Hab. injection Hab as -> ->. done.
Qed.

Lemma endpoint_step_wf (G : Graph) (e : node * node) : graph_wf G -> graph_wf (endpoint_step G e).
Proof.
  intros Hwf. destruct e as [u v]. unfold endpoint_step.
  assert (H1 : graph_wf (if mem u (g_nodes G) then G else add_node G u)).
  { destruct (mem u _); [done|by apply add_node_wf]. }
  destruct (mem v _); [done|by apply add_node_wf].
Qed.

Lemma add_node_nodup (G : Graph) (u : node) : NoDup (g_nodes G) -> NoDup (g_nodes (add_node G u)).
Proof.
  intros Hnd. unfold add_node. destruct (mem u (g_nodes G)) eqn:E; [done|]. simpl.
  apply NoDup_app. split; [done|]. split; [|apply NoDup_singleton].
  intros x Hx ->%list_elem_of_singleton. apply (not_true_iff_false _) in E. apply E, mem_spec, Hx.
Qed.

Lemma add_edge_nodup (G : Graph) (e : node * node) :
  NoDup (g_nodes G) -> NoDup (g_nodes (add_edge G e)).
Proof.
  intros Hnd. destruct e as [u v]. unfold add_edge.
  pose proof (add_node_nodup _ v (add_node_nodup G u Hnd)).
  destruct (has_edge _ u v); done.
Qed.

Lemma endpoint_step_nodup (G : Graph) (e : node * node) :
  NoDup (g_nodes G) -> NoDup (g_nodes (endpoint_step G e)).
Proof.
  intros Hnd. destruct e as [u v]. unfold endpoint_step.
  assert (H1 : NoDup (g_nodes (if mem u (g_nodes G) then G else add_node G u))).
  { destruct (mem u _); [done|by apply add_node_nodup]. }
  destruct (mem v _); [done|by apply add_node_nodup].
Qed.

Lemma foldl_preserves {A : Type} (P : Graph -> Prop) (f : Graph -> A -> Graph) (G : Graph) (l : list A) :
  (forall G' a, P G' -> P (f G' a)) -> P G -> P (foldl f G l).
Proof. intros Hf. revert G. induction l as [|a l IH]; intros G HG; simpl; auto. Qed.

Lemma add_edge_size (G : Graph) (e : node * node) :
  (number_of_edges (add_edge G e) <= number_of_edges G + 1)%nat /\
  (number_of_nodes (add_edge G e) <= number_of_nodes G + 2)%nat.
Proof.
  destruct e as [u v]. unfold add_edge, number_of_edges, number_of_nodes.
  assert (Hn : forall G' w, (length (g_nodes (add_node G' w)) <= length (g_nodes G') + 1)%nat
                            /\ g_edges (add_node G' w) = g_edges G').
  { intros G' w. unfold add_node. destruct (mem w _); simpl; [split; [lia|done]|].
    rewrite length_app. simpl. split; [lia|done]. }
  destruct (Hn G u) as [Hn1 He1], (Hn (add_node G u) v) as [Hn2 He2].
  destruct (has_edge _ u v); simpl; [rewrite He2, He1; lia|].
  rewrite length_app, He2, He1. simpl. lia.
Qed.

Lemma endpoint_step_size (G : Graph) (e : node * node) :
  g_edges (endpoint_step G e) = g_edges G /\
  (number_of_nodes (endpoint_step G e) <= number_of_nodes G + 2)%nat.
Proof.
  destruct e as [u v]. unfold endpoint_step, number_of_nodes.
  assert (Hn : forall G' w, (length (g_nodes (add_node G' w)) <= length (g_nodes G') + 1)%nat
                            /\ g_edges (add_node G' w) = g_edges G').
  { intros G' w. unfold add_node. destruct (mem w _); simpl; [split; [lia|done]|].
    rewrite length_app. simpl. split; [lia|done]. }
  destruct (mem u (g_nodes G)).
  - destruct (mem v (g_nodes G)); [split; [done|lia]|].
    destruct (Hn G v) as [H1 H2]. split; [done|lia].
  - destruct (Hn G u) as [H1 H2].
    destruct (mem v (g_nodes (add_node G u))); [split; [done|lia]|].
    destruct (Hn (add_node G u) v) as [H3 H4]. split; [congruence|lia].
Qed.

Lemma foldl_add_edge_size (G : Graph) (es : list (node * node)) :
  (number_of_edges (foldl add_edge G es) <= number_of_edges G + length es)%nat /\
  (number_of_nodes (foldl add_edge G es) <= number_of_nodes G + 2 * length es)%nat.
Proof.
  revert G. induction es as [|e es IH]; intros G; simpl; [lia|].
  destruct (add_edge_size G e), (IH (add_edge G e)). lia.
Qed.

Lemma endpoint_loop_size (G : Graph) (es : list (node * node)) :
  (number_of_nodes (foldl endpoint_step G es) <= number_of_nodes G + 2 * length es)%nat.
Proof.
  revert G. induction es as [|e es IH]; intros G; simpl; [lia|].
  destruct (endpoint_step_size G e) as [_ H]. specialize (IH (endpoint_step G e)). lia.
Qed.

(** ** X: [I_AddCycleRedundancy.realize_geometrically] *)

(** [realize_geometrically] keeps every node and edge of the carrier
    (in order, as a prefix) and afterwards every candidate edge is an
    edge of the carrier, with both endpoints as nodes. *)
Theorem acr_realize_adds_edges (p : params) (G : Graph) :
  g_nodes G `prefix_of` g_nodes (acr_realize_geometrically p G) /\
  g_edges G `prefix_of` g_edges (acr_realize_geometrically p G) /\
  (forall u v, (u, v) ∈ param_edges p ->
     has_edge (acr_realize_geometrically p G) u v = true /\
     u ∈ g_nodes (acr_realize_geometrically p G) /\
     v ∈ g_nodes (acr_realize_geometrically p G)).
Proof.
  rewrite acr_realize_unfold. unfold add_edges_from.
  destruct (endpoint_loop_mono G (param_edges p)) as [Hn He].
  destruct (foldl_add_edge_mono (foldl endpoint_step G (param_edges p)) (param_edges p))
    as [Hn2 He2].
  split; [by etrans|]. split; [rewrite <- He; exact He2|].
  intros u v Hin. by apply foldl_add_edge_has.
Qed.

(** Realizing the same [I_AddCycleRedundancy] operator twice changes
    nothing the second time: re-adding present nodes and edges is a
    no-op. *)
Theorem acr_realize_idempotent (p : params) (G : Graph) :
  acr_realize_geometrically p (acr_realize_geometrically p G) = acr_realize_geometrically p G.
Proof.
  destruct (acr_realize_adds_edges p G) as (_ & _ & Hall).
  rewrite (acr_realize_unfold p (acr_realize_geometrically p G)).
  rewrite endpoint_loop_present; [|intros u v Hin; by destruct (Hall u v Hin) as (_ & ? & ?)].
  unfold add_edges_from. by apply foldl_add_edge_present.
Qed.

(** [realize_geometrically] keeps the carrier a well-formed graph: edge
    endpoints stay nodes and the node list stays duplicate-free. *)
Theorem acr_realize_wf (p : params) (G : Graph) :
  graph_wf G -> NoDup (g_nodes G) ->
  graph_wf (acr_realize_geometrically p G) /\ NoDup (g_nodes (acr_realize_geometrically p G)).
Proof.
  intros Hwf Hnd. rewrite acr_realize_unfold. unfold add_edges_from. split.
  - apply foldl_preserves; [intros; by apply add_edge_wf|].
    apply foldl_preserves; [intros; by apply endpoint_step_wf|done].
  - apply (foldl_preserves (fun G' => NoDup (g_nodes G'))); [intros; by apply add_edge_nodup|].
    apply (foldl_preserves (fun G' => NoDup (g_nodes G'))); [intros; by apply endpoint_step_nodup|done].
Qed.

Lemma endpoint_step_has (G : Graph) (u v : node) :
  u ∈ g_nodes (endpoint_step G (u, v)) /\ v ∈ g_nodes (endpoint_step G (u, v)).
Proof.
  unfold endpoint_step.
  assert (Hu : u ∈ g_nodes (if mem u (g_nodes G) then G else add_node G u)).
  { destruct (mem u (g_nodes G)) eqn:E; [by apply mem_spec|apply add_node_elem]. }
  set (G'' := if mem u (g_nodes G) then G else add_node G u) in *.
  destruct (mem v (g_nodes G'')) eqn:E; [split; [done|by apply mem_spec]|].
  destruct (add_node_mono G'' v) as [[l Hl] _]. pose proof (add_node_elem G'' v) as Hv.
  rewrite Hl in *. split; [set_solver|done].
Qed.

Lemma endpoint_loop_has (G : Graph) (es : list (node * node)) (u v : node) :
  (u, v) ∈ es -> u ∈ g_nodes (foldl endpoint_step G es) /\ v ∈ g_nodes (foldl endpoint_step G es).
Proof.
  revert G. induction es as [|e es IH]; intros G Hin; [set_solver|]. cbn [foldl].
  apply elem_of_cons in Hin as [<-|Hin]; [|by apply IH].
  destruct (endpoint_loop_mono (endpoint_step G (u, v)) es) as [[l Hl] _].
  destruct (endpoint_step_has G u v). rewrite Hl. set_solver.
Qed.

Lemma foldl_add_edge_nodes_same (G : Graph) (es : list (node * node)) :
  (forall u v, (u, v) ∈ es -> u ∈ g_nodes G /\ v ∈ g_nodes G) ->
  g_nodes (foldl add_edge G es) = g_nodes G.
Proof.
  revert G. induction es as [|[u v] es IH]; intros G Hes; cbn [foldl]; [done|].
  destruct (Hes u v) as [Hu Hv]; [set_solver|].
  assert (Hn : g_nodes (add_edge G (u, v)) = g_nodes G).
  { unfold add_edge. rewrite (add_node_present G u Hu), (add_node_present G v Hv).
    by destruct (has_edge G u v). }
  rewrite IH; [done|]. rewrite Hn. intros a b Hab. apply Hes. set_solver.
Qed.

(** [realize_geometrically] adds at most one edge and two nodes per
    candidate edge. *)
Theorem acr_realize_size (p : params) (G : Graph) :
  (number_of_edges (acr_realize_geometrically p G) <= number_of_edges G + length (param_edges p))%nat /\
  (number_of_nodes (acr_realize_geometrically p G) <= number_of_nodes G + 2 * length (param_edges p))%nat.
Proof.
  rewrite acr_realize_unfold. unfold add_edges_from.
  destruct (foldl_add_edge_size (foldl endpoint_step G (param_edges p)) (param_edges p)) as [H1 _].
  pose proof (endpoint_loop_size G (param_edges p)) as H2.
  destruct (endpoint_loop_mono G (param_edges p)) as [_ He].
  unfold number_of_edges, number_of_nodes in *.
  rewrite (foldl_add_edge_nodes_same _ (param_edges p)) by (intros; by apply endpoint_loop_has).
  rewrite He in *. lia.
Qed.

(** ** X: [I_AddCycleRedundancy.algebraic_effect] bounds and missing key *)

Lemma sum_pairs_steps_bounds (ci : gmap node nat) (es : list (node * node)) :
  0 <= fst (sum_pairs (map (acr_step ci (0, 0)) es)) /\
  snd (sum_pairs (map (acr_step ci (0, 0)) es)) <= 0 /\
  fst (sum_pairs (map (acr_step ci (0, 0)) es)) - snd (sum_pairs (map (acr_step ci (0, 0)) es))
    <= Z.of_nat (length es).
Proof.
  induction es as [|[u v] es IH]; [simpl; lia|].
  change (sum_pairs (map (acr_step ci (0, 0)) ((u, v) :: es)))
    with (fst (acr_step ci (0, 0) (u, v)) + fst (sum_pairs (map (acr_step ci (0, 0)) es)),
          snd (acr_step ci (0, 0) (u, v)) + snd (sum_pairs (map (acr_step ci (0, 0)) es))).
  cbn [fst snd length]. rewrite Nat2Z.inj_succ.
  assert (Hc : acr_step ci (0, 0) (u, v) = (1, 0) \/ acr_step ci (0, 0) (u, v) = (0, -1) \/
               acr_step ci (0, 0) (u, v) = (0, 0)).
  { unfold acr_step. destruct (ci !! u), (ci !! v); try destruct (Nat.eqb _ _); auto. }
  destruct Hc as [Hc | [Hc | Hc]]; rewrite Hc; cbn [fst snd]; lia.
Qed.

(** The β1 delta of [algebraic_effect] is non-negative, the β0 delta
    is non-positive, and together they count at most one per candidate
    edge (edges with an absent endpoint count for nothing). *)
Theorem acr_effect_bounds (p : params) (current : Invariants) (G : Graph) :
  let '(d1, d0) := effect_values (acr_algebraic_effect p current G) in
  0 <= d1 /\ d0 <= 0 /\ d1 - d0 <= Z.of_nat (length (param_edges p)).
Proof.
  rewrite acr_effect_values, effect_values_betti_deltas, foldl_acr_step_sum.
  cbn [fst snd]. pose proof (sum_pairs_steps_bounds (comp_index_of G) (param_edges p)) as H.
  lia.
Qed.

(** Without an ["edges"] parameter, [I_AddCycleRedundancy] predicts
    zero deltas and [realize_geometrically] leaves the carrier as it
    is. *)
Theorem acr_missing_edges_key (current : Invariants) (G : Graph) :
  acr_algebraic_effect (mkParams None) current G = betti_deltas 0 0 /\
  acr_realize_geometrically (mkParams None) G = G.
Proof. split; reflexivity. Qed.

(** ** X: component count *)

Lemma cc_go_length (G : Graph) (vs seen : list node) :
  (length (cc_go G vs seen) <= length vs)%nat.
Proof.
  revert seen. induction vs as [|v vs IH]; intros seen; simpl; [lia|].
  destruct (mem v seen); simpl;
    [specialize (IH seen) | specialize (IH (seen ++ plain_bfs G (number_of_nodes G) [v] [v]))]; lia.
Qed.

(** The measured β0 never exceeds the node count, and it is 0 exactly
    when the carrier has no nodes (an empty graph measures
    [{β0: 0, β1: -m, β2: 0}], not the constructor default). *)
Theorem measure_beta0_range (G : Graph) :
  exists c, betti (measure_invariants G) !! beta0 = Some (Z.of_nat c) /\
            (c <= number_of_nodes G)%nat /\ (c = 0%nat <-> g_nodes G = []).
Proof.
  exists (number_connected_components G). split; [by destruct (measure_invariants_betti G)|].
  unfold number_connected_components, connected_components, number_of_nodes. split.
  - apply cc_go_length.
  - destruct (g_nodes G) as [|v vs]; simpl; [done|]. split; [discriminate|discriminate].
Qed.

(** ** X: runs of [execute] *)

(** Running a concatenation is running the first part and, if it
    completes, the second part from the resulting kernel. *)
Theorem execute_app (k : Kernel) (ops1 ops2 : list Operator) (cs : constraints) :
  execute k (ops1 ++ ops2) cs =
  match execute k ops1 cs with
  | Completed k' => execute k' ops2 cs
  | o => o
  end.
Proof.
  revert k. induction ops1 as [|op ops1 IH]; intros k; simpl; [done|].
  destruct (verify_contract _ _ _ _ _) as [[|]|]; [apply IH|done|done].
Qed.

Lemma verify_contract_defined (op : Operator) (k : Kernel) (cs : constraints) :
  invariants k = measure_invariants (carrier k) ->
  verify_contract op (invariants k) (algebraic_effect op (invariants k) (carrier k)) cs (carrier k)
    <> None.
Proof.
  intros Hk. destruct op as [p|p]; simpl; [|discriminate].
  destruct (measure_invariants_betti (carrier k)) as (_ & Hb1 & _). rewrite <- Hk in Hb1.
  unfold acr_verify_contract. rewrite acr_effect_values, betti_deltas_beta1.
  case_decide; [discriminate|]. by rewrite Hb1.
Qed.

(** On a kernel built by the public API, [execute] never ends with a
    [KeyError]: the β1 entries that [verify_contract] reads are always
    present. *)
Theorem execute_no_key_error (k : Kernel) (ops : list Operator) (cs : constraints) (k' : Kernel) :
  reachable k -> execute k ops cs <> KeyError k'.
Proof.
  intros Hr. apply reachable_measured in Hr. revert k Hr.
  induction ops as [|op rest IH]; intros k Hk; simpl; [discriminate|].
  pose proof (verify_contract_defined op k cs Hk) as Hd.
  destruct (verify_contract _ _ _ _ _) as [[|]|]; [|discriminate|done].
  apply IH, commit_measured.
Qed.

(** The log is append-only: every run, completed or not, leaves the old
    log as a prefix and appends one entry per committed operator, with
    its name and parameters, in order; a completed run appends one
    entry per operator. *)
Theorem execute_log_append (k : Kernel) (ops : list Operator) (cs : constraints) :
  exists suffix,
    log (outcome_kernel (execute k ops cs)) = log k ++ suffix /\
    map (fun e => (le_name e, le_parameters e)) suffix =
      map (fun op => (op_name op, op_parameters op)) (take (length suffix) ops) /\
    (forall k', execute k ops cs = Completed k' -> length suffix = length ops).
Proof.
  revert k. induction ops as [|op rest IH]; intros k; simpl.
  - exists []. rewrite app_nil_r. split; [done|]. split; [done|]. intros k' [= <-]. done.
  - destruct (verify_contract _ _ _ _ _) as [[|]|].
    + destruct (IH (commit op (algebraic_effect op (invariants k) (carrier k)) k))
        as (suf & Hlog & Hmap & Hlen).
      exists (mkEntry (op_name op) (op_parameters op)
                (algebraic_effect op (invariants k) (carrier k)) :: suf).
      split; [rewrite Hlog; simpl; by rewrite <- app_assoc|].
      split; [simpl; by rewrite Hmap|].
      intros k' Hc. simpl. by rewrite (Hlen k' Hc).
    + exists []. rewrite app_nil_r. split; [done|]. split; [done|]. intros k' [=].
    + exists []. rewrite app_nil_r. split; [done|]. split; [done|]. intros k' [=].
Qed.

Definition is_h1 (op : Operator) : Prop :=
  match op with I_CalculateH1Graph _ => True | _ => False end.

(** A sequence of [I_CalculateH1Graph] operators always completes,
    whatever the constraints, leaves the carrier untouched, and (when
    non-empty) leaves the invariants equal to the carrier's
    measurement. *)
Theorem execute_h1_only (k : Kernel) (ops : list Operator) (cs : constraints) :
  Forall is_h1 ops ->
  exists k', execute k ops cs = Completed k' /\ carrier k' = carrier k /\
             (ops <> [] -> invariants k' = measure_invariants (carrier k)).
Proof.
  revert k. induction ops as [|op rest IH]; intros k Hall; simpl.
  - exists k. repeat split; try done.
  - apply Forall_cons in Hall as [Hop Hrest]. destruct op as [p|p]; [done|]. simpl.
    destruct (IH (commit (I_CalculateH1Graph p) ∅ k) Hrest) as (k' & Hrun & Hcar & Hinv).
    exists k'. split; [exact Hrun|]. split; [exact Hcar|]. intros _.
    destruct rest as [|op' rest'].
    + simpl in Hrun. injection Hrun as <-. rewrite commit_measured. reflexivity.
    + rewrite Hinv by discriminate. reflexivity.
Qed.




(** ** X: composing [apply_deltas] *)

Lemma apply_deltas_nonempty (b : betti_map) (d : deltas) :
  b ≠ ∅ -> betti (apply_deltas (mkInv b) d) ≠ ∅.
Proof.
  intros Hb. pose proof (apply_deltas_lookup b d) as Hl.
  apply map_choose in Hb as Hch. destruct Hch as (k0 & x & Hk0).
  intros Hempty. pose proof (Hl k0 Hb) as H.
  rewrite Hempty, lookup_empty, Hk0 in H.
  destruct (d !! betti_group ≫= _); discriminate.
Qed.

(** Applying two deltas mappings in turn adds both deltas to each label
    of the group ["betti"] (a label that neither touches keeps its
    value). *)
Theorem apply_deltas_compose (b : betti_map) (d1 d2 : deltas) (k : string) :
  b ≠ ∅ ->
  betti (apply_deltas (apply_deltas (mkInv b) d1) d2) !! k =
  match d1 !! betti_group ≫= (fun kv => kv !! k), d2 !! betti_group ≫= (fun kv => kv !! k) with
  | None, None => b !! k
  | x1, x2 => Some (default 0 (b !! k) + default 0 x1 + default 0 x2)
  end.
Proof.
  intros Hb.
  assert (E : apply_deltas (mkInv b) d1 = mkInv (betti (apply_deltas (mkInv b) d1))) by done.
  rewrite E, apply_deltas_lookup by (by apply apply_deltas_nonempty).
  rewrite apply_deltas_lookup by done.
  destruct (d1 !! betti_group ≫= _), (d2 !! betti_group ≫= _); simpl; f_equal; lia.
Qed.

(** ** X: the [max_betti1] bound is checked on the prediction *)

(** [verify_contract] bounds the predicted β1, while the invariants
    after the step are the re-measured ones.  Where the per-call
    component snapshot under-predicts β1, a run completes with a final
    β1 above [max_betti1]: on three isolated nodes, the edges (0,1),
    (1,2), (0,2) are predicted to add no cycle, pass [max_betti1 = 0],
    and the measured β1 is then 1. *)
Theorem execute_bound_checked_on_prediction :
  exists (G : Graph) (ops : list Operator) (cs : constraints) (k' : Kernel) (max_b1 b1 : Z),
    execute (TopyKernel_init G) ops cs = Completed k' /\
    cs !! max_betti1_key = Some max_b1 /\
    betti (invariants k') !! beta1 = Some b1 /\
    max_b1 < b1.
Proof.
  exists three_isolated, [I_AddCycleRedundancy (mkParams (Some chain_edges))],
    {[ max_betti1_key := 0 ]},
    (outcome_kernel (execute (TopyKernel_init three_isolated)
                       [I_AddCycleRedundancy (mkParams (Some chain_edges))]
                       {[ max_betti1_key := 0 ]})), 0, 1.
  split; [vm_compute; reflexivity|]. split; [reflexivity|]. split; [vm_compute; reflexivity|].
  lia.
Qed.

(** ** Witnesses of the further properties *)

Lemma acr_realize_adds_edges_witness :
  (5, 6)%nat ∈ param_edges (mkParams (Some [(0, 3); (5, 6)]%nat)) /\
  has_edge (acr_realize_geometrically (mkParams (Some [(0, 3); (5, 6)]%nat)) path_graph4) 5 6
    = true.
Proof.
  assert (Hin : (5, 6)%nat ∈ param_edges (mkParams (Some [(0, 3); (5, 6)]%nat))).
  { apply list_elem_of_In. simpl. tauto. }
  split; [exact Hin|].
  destruct (acr_realize_adds_edges (mkParams (Some [(0, 3); (5, 6)]%nat)) path_graph4)
    as (_ & _ & H).
  exact (proj1 (H 5%nat 6%nat Hin)).
Defined.

Lemma acr_realize_wf_witness :
  graph_wf path_graph4 /\ NoDup (g_nodes path_graph4) /\
  graph_wf (acr_realize_geometrically (mkParams (Some [(0, 3); (5, 6)]%nat)) path_graph4).
Proof.
  assert (Hnd : NoDup (g_nodes path_graph4)).
  { apply (bool_decide_unpack _). vm_compute. exact I. }
  split; [exact path_graph4_wf|]. split; [exact Hnd|].
  exact (proj1 (acr_realize_wf _ _ path_graph4_wf Hnd)).
Defined.

Lemma execute_no_key_error_witness :
  reachable (TopyKernel_init path_graph4) /\
  execute (TopyKernel_init path_graph4) three_ops three_ops_constraints
    <> KeyError (outcome_kernel three_ops_run).
Proof.
  assert (Hr : reachable (TopyKernel_init path_graph4)) by apply reachable_init.
  split; [exact Hr|]. exact (execute_no_key_error _ _ _ _ Hr).
Defined.

Lemma execute_log_append_witness :
  demo_run = Completed (outcome_kernel demo_run) /\
  exists suffix, log (outcome_kernel demo_run) = [] ++ suffix /\ length suffix = length demo_ops.
Proof.
  assert (H : demo_run = Completed (outcome_kernel demo_run)) by (vm_compute; reflexivity).
  split; [exact H|].
  destruct (execute_log_append (TopyKernel_init path_graph4) demo_ops demo_constraints)
    as (suf & Hl & _ & Hlen).
  exists suf. split; [exact Hl|]. exact (Hlen _ H).
Defined.

Lemma execute_h1_only_witness :
  Forall is_h1 [I_CalculateH1Graph (mkParams None); I_CalculateH1Graph (mkParams None)] /\
  exists k', execute (TopyKernel_init path_graph4)
               [I_CalculateH1Graph (mkParams None); I_CalculateH1Graph (mkParams None)] ∅
             = Completed k' /\ carrier k' = path_graph4.
Proof.
  assert (Hall : Forall is_h1 [I_CalculateH1Graph (mkParams None);
                               I_CalculateH1Graph (mkParams None)]).
  { repeat constructor. }
  split; [exact Hall|].
  destruct (execute_h1_only (TopyKernel_init path_graph4) _ ∅ Hall) as (k' & Hrun & Hcar & _).
  exists k'. split; [exact Hrun|exact Hcar].
Defined.


Lemma apply_deltas_compose_witness :
  default_betti ≠ ∅ /\
  betti (apply_deltas (apply_deltas (mkInv default_betti) (betti_deltas 1 0)) (betti_deltas 2 (-1)))
    !! beta1 = Some 3.
Proof.
  split; [exact default_betti_nonempty|].
  rewrite (apply_deltas_compose default_betti (betti_deltas 1 0) (betti_deltas 2 (-1)) beta1
             default_betti_nonempty).
  reflexivity.
Defined.
